(** * Subset generator: a shallow embedding of [src/src/lib.rs]

    The generator holds a borrowed vector [data] and a flag [with_emptyset].
    An iteration session ([SubsetIter]) owns a bit vector [set] of the length
    of [data], bit [i] standing for item [i]; [next] adds one to it (bit 0
    least significant) and projects it onto the items. *)

From Stdlib Require Import List Arith Lia Bool Sorted ZArith.
Import ListNotations.

Section Generator.

Context {T : Type}.

(** [SubsetGenerator<'a, T>]: the borrowed data set and the empty-set flag. *)
Record SubsetGenerator := {
  gen_data : list T;
  gen_with_emptyset : bool
}.

(** [SubsetIter<'a, T>]: the borrowed data set, the [BitVec] counter and the
    one-shot empty-set flag. *)
Record SubsetIter := {
  data : list T;
  set : list bool;
  with_emptyset : bool
}.

(** A reference [&data[i]] handed out by the iterator: the place [i] of the
    borrowed vector together with the value stored there. *)
Record ref := {
  loc : nat;
  val : T
}.

(** [SubsetGenerator::new]. *)
Definition new (d : list T) (w : bool) : SubsetGenerator :=
  {| gen_data := d; gen_with_emptyset := w |}.

(** [BitVec::from_elem(len, b)]. *)
Definition from_elem (len : nat) (b : bool) : list bool := repeat b len.

(** [SubsetGenerator::into_iter] (consumes the generator). *)
Definition into_iter (g : SubsetGenerator) : SubsetIter :=
  let len := length (gen_data g) in
  {| data := gen_data g;
     set := from_elem len false;
     with_emptyset := gen_with_emptyset g |}.

(** [SubsetGenerator::iter] (borrows the generator). *)
Definition iter (g : SubsetGenerator) : SubsetIter :=
  let len := length (gen_data g) in
  {| data := gen_data g;
     set := from_elem len false;
     with_emptyset := gen_with_emptyset g |}.

(** First loop of [next_set]: [all_set &= self.set[i]] for [i] in [0..len]. *)
Definition all_set (bits : list bool) : bool :=
  fold_left (fun acc b => acc && b) bits true.

(** Second loop of [next_set]: scanning from index 0, a set bit is cleared
    and the scan goes on; the first clear bit is set and the scan stops. *)
Fixpoint add_one (bits : list bool) : list bool :=
  match bits with
  | [] => []
  | true :: rest => false :: add_one rest
  | false :: rest => true :: rest
  end.

(** [SubsetIter::next_set]: the returned flag and the updated session. *)
Definition next_set (s : SubsetIter) : bool * SubsetIter :=
  if all_set (set s) then (false, s)
  else (true, {| data := data s;
                 set := add_one (set s);
                 with_emptyset := with_emptyset s |}).

(** The projection loop of [next]: for [i] in [0..set.len()], if [set[i]]
    then push [&data[i]]; an index out of the bounds of [data] panics
    ([None]). [i] is the index of the head of [bits]. *)
Fixpoint collect (d : list T) (bits : list bool) (i : nat) : option (list ref) :=
  match bits with
  | [] => Some []
  | b :: rest =>
      if b then
        match nth_error d i with
        | Some x =>
            match collect d rest (S i) with
            | Some r => Some ({| loc := i; val := x |} :: r)
            | None => None
            end
        | None => None
        end
      else collect d rest (S i)
  end.

(** What a call of [next] does: [Some subset], [None], or a panic. *)
Inductive Next :=
| Yield (r : list ref)
| Done
| Panic.

(** [Iterator::next for SubsetIter]. *)
Definition next (s : SubsetIter) : Next * SubsetIter :=
  if with_emptyset s then
    (Yield [], {| data := data s; set := set s; with_emptyset := false |})
  else
    let (ok, s') := next_set s in
    if ok then
      match collect (data s') (set s') 0 with
      | Some r => (Yield r, s')
      | None => (Panic, s')
      end
    else (Done, s').

(** The session after [k] calls of [next]. *)
Fixpoint advance_n (k : nat) (s : SubsetIter) : SubsetIter :=
  match k with
  | 0 => s
  | S k' => advance_n k' (snd (next s))
  end.

(** Driving a session with at most [fuel] calls of [next], as a [for] loop
    does: the subsets produced, and whether [None] was reached. *)
Fixpoint drain (fuel : nat) (s : SubsetIter) : list (list ref) * bool :=
  match fuel with
  | 0 => ([], false)
  | S f =>
      match next s with
      | (Yield r, s') => let (rs, fin) := drain f s' in (r :: rs, fin)
      | (Done, _) => ([], true)
      | (Panic, _) => ([], false)
      end
  end.

(** The source indices of an emitted subset. *)
Definition idx (r : list ref) : list nat := map loc r.

End Generator.

Arguments SubsetGenerator : clear implicits.
Arguments SubsetIter : clear implicits.
Arguments ref : clear implicits.
Arguments Next : clear implicits.

(** ** The counter as a binary number, bit 0 least significant *)

Module Counter.

(** The number a bit vector stands for. *)
Fixpoint value (b : list bool) : nat :=
  match b with
  | [] => 0
  | x :: r => Nat.b2n x + 2 * value r
  end.

(** The [n]-bit vector of the number [k] (taken modulo [2^n]). *)
Fixpoint bits_of (n k : nat) : list bool :=
  match n with
  | 0 => []
  | S n' => Nat.odd k :: bits_of n' (Nat.div2 k)
  end.

(** The indices of the set bits, the head of [b] having index [i]. *)
Fixpoint ones (b : list bool) (i : nat) : list nat :=
  match b with
  | [] => []
  | x :: r => if x then i :: ones r (S i) else ones r (S i)
  end.

Lemma b2n_odd_div2 k : k = 2 * Nat.div2 k + Nat.b2n (Nat.odd k).
Proof. apply Nat.div2_odd. Qed.

Lemma bits_of_length n k : length (bits_of n k) = n.
Proof. revert k; induction n; intros k; simpl; auto. Qed.

Lemma value_lt b : value b < 2 ^ length b.
Proof.
  induction b as [|x r IH]; simpl; [lia|].
  destruct x; simpl; lia.
Qed.

Lemma value_bits_of n k : k < 2 ^ n -> value (bits_of n k) = k.
Proof.
  revert k; induction n as [|n IH]; intros k Hk; simpl in *; [lia|].
  pose proof (b2n_odd_div2 k) as E.
  assert (Nat.b2n (Nat.odd k) <= 1) by (destruct (Nat.odd k); simpl; lia).
  rewrite IH by lia. lia.
Qed.

Lemma bits_of_value b : bits_of (length b) (value b) = b.
Proof.
  induction b as [|x r IH]; [reflexivity|].
  cbn [length value bits_of].
  destruct x; cbn [Nat.b2n].
  - replace (1 + 2 * value r) with (S (2 * value r)) by lia.
    rewrite Nat.div2_succ_double, IH.
    replace (S (2 * value r)) with (2 * value r + 1) by lia.
    rewrite Nat.odd_odd. reflexivity.
  - rewrite Nat.add_0_l, Nat.div2_double, IH, Nat.odd_even. reflexivity.
Qed.

Lemma bits_of_inj n j k :
  j < 2 ^ n -> k < 2 ^ n -> bits_of n j = bits_of n k -> j = k.
Proof.
  intros Hj Hk E.
  rewrite <- (value_bits_of n j Hj), <- (value_bits_of n k Hk), E.
  reflexivity.
Qed.

Lemma all_set_fold acc b : fold_left (fun a x => a && x) b acc = acc && all_set b.
Proof.
  unfold all_set. revert acc; induction b as [|x r IH]; intros acc; simpl.
  - now rewrite andb_true_r.
  - rewrite IH, (IH x). now rewrite andb_assoc.
Qed.

Lemma all_set_cons x r : all_set (x :: r) = x && all_set r.
Proof. unfold all_set at 1; simpl. apply all_set_fold. Qed.

Lemma all_set_nil : all_set [] = true.
Proof. reflexivity. Qed.

Lemma all_set_true_value b : all_set b = true -> value b = 2 ^ length b - 1.
Proof.
  induction b as [|x r IH]; intros H; simpl; [reflexivity|].
  rewrite all_set_cons in H. apply andb_true_iff in H as [-> H].
  rewrite IH by exact H. simpl.
  pose proof (Nat.pow_nonzero 2 (length r)). lia.
Qed.

Lemma all_set_false_value b : all_set b = false -> S (value b) < 2 ^ length b.
Proof.
  induction b as [|x r IH]; intros H; [discriminate|].
  rewrite all_set_cons in H. simpl.
  pose proof (value_lt r).
  destruct x; simpl in *.
  - specialize (IH H). lia.
  - lia.
Qed.

Lemma add_one_length b : length (add_one b) = length b.
Proof. induction b as [|[|] r IH]; simpl; auto. Qed.

Lemma add_one_value b : all_set b = false -> value (add_one b) = S (value b).
Proof.
  induction b as [|x r IH]; intros H; [discriminate|].
  rewrite all_set_cons in H.
  destruct x; simpl in *; [rewrite IH by exact H|]; lia.
Qed.

Lemma all_set_bits_of_lt n k : S k < 2 ^ n -> all_set (bits_of n k) = false.
Proof.
  intros H. destruct (all_set (bits_of n k)) eqn:E; [|reflexivity].
  apply all_set_true_value in E.
  rewrite bits_of_length, value_bits_of in E by lia. lia.
Qed.

Lemma all_set_bits_of_top n : all_set (bits_of n (2 ^ n - 1)) = true.
Proof.
  destruct (all_set (bits_of n (2 ^ n - 1))) eqn:E; [reflexivity|].
  apply all_set_false_value in E.
  pose proof (Nat.pow_nonzero 2 n).
  rewrite bits_of_length, value_bits_of in E by lia. lia.
Qed.

Lemma add_one_bits_of n k : S k < 2 ^ n -> add_one (bits_of n k) = bits_of n (S k).
Proof.
  intros H.
  pose proof (all_set_bits_of_lt n k H) as F.
  rewrite <- (bits_of_value (add_one (bits_of n k))).
  rewrite add_one_length, bits_of_length, add_one_value, value_bits_of by (auto; lia).
  reflexivity.
Qed.

Lemma from_elem_bits_of n : from_elem n false = bits_of n 0.
Proof. induction n as [|n IH]; simpl; [reflexivity|]. now rewrite <- IH. Qed.

Lemma bits_of_testbit n k : bits_of n k = map (fun i => Nat.testbit k i) (seq 0 n).
Proof.
  revert k; induction n as [|n IH]; intros k; simpl; [reflexivity|].
  f_equal. rewrite IH, <- seq_shift, map_map. reflexivity.
Qed.

Lemma ones_range b i j : In j (ones b i) -> i <= j < i + length b.
Proof.
  revert i; induction b as [|x r IH]; intros i H; simpl in *; [contradiction|].
  destruct x; [destruct H as [<-|H]; [lia|]|]; apply IH in H; lia.
Qed.

Lemma ones_strongly_sorted b i : StronglySorted lt (ones b i).
Proof.
  revert i; induction b as [|x r IH]; intros i; simpl; [constructor|].
  destruct x; [|apply IH].
  constructor; [apply IH|].
  apply Forall_forall. intros j Hj. apply ones_range in Hj. lia.
Qed.

Lemma ones_sorted b i : Sorted lt (ones b i).
Proof. apply StronglySorted_Sorted, ones_strongly_sorted. Qed.

Lemma ones_map_seq f n i : ones (map f (seq i n)) i = filter f (seq i n).
Proof.
  revert i; induction n as [|n IH]; intros i; simpl; [reflexivity|].
  rewrite IH. destruct (f i); reflexivity.
Qed.

Lemma ones_filter_nth b i :
  ones b i = filter (fun j => nth (j - i) b false) (seq i (length b)).
Proof.
  revert i; induction b as [|x r IH]; intros i; simpl; [reflexivity|].
  rewrite Nat.sub_diag, IH. simpl.
  assert (E : filter (fun j => nth (j - S i) r false) (seq (S i) (length r)) =
              filter (fun j => nth (j - i) (x :: r) false) (seq (S i) (length r))).
  { apply filter_ext_in. intros j Hj. apply in_seq in Hj.
    replace (j - i) with (S (j - S i)) by lia. reflexivity. }
  rewrite E. destruct x; reflexivity.
Qed.

Lemma ones_inj b c i : length b = length c -> ones b i = ones c i -> b = c.
Proof.
  revert c i; induction b as [|x r IH]; intros [|y q] i Hl H;
    simpl in *; try discriminate; [reflexivity|].
  destruct x, y.
  - injection H as H. f_equal. apply (IH q (S i)); auto.
  - exfalso. assert (Hin : In i (ones q (S i))) by (rewrite <- H; left; reflexivity).
    apply ones_range in Hin. lia.
  - exfalso. assert (Hin : In i (ones r (S i))) by (rewrite H; left; reflexivity).
    apply ones_range in Hin. lia.
  - f_equal. apply (IH q (S i)); auto.
Qed.

Lemma ones_nil_value b i : ones b i = [] -> value b = 0.
Proof.
  revert i; induction b as [|x r IH]; intros i H; simpl in *; [reflexivity|].
  destruct x; [discriminate|]. rewrite (IH (S i) H). reflexivity.
Qed.

Lemma strongly_sorted_unique l1 l2 :
  StronglySorted lt l1 -> StronglySorted lt l2 ->
  (forall x, In x l1 <-> In x l2) -> l1 = l2.
Proof.
  intros H1; revert l2; induction H1 as [|a l1 S1 IH F1]; intros l2 H2 E.
  - destruct l2 as [|b l2]; [reflexivity|].
    exfalso. apply (proj2 (E b)). left. reflexivity.
  - destruct H2 as [|b l2 S2 F2].
    + exfalso. apply (proj1 (E a)). left. reflexivity.
    + assert (a = b).
      { destruct (proj1 (E a) (or_introl eq_refl)) as [|Ha]; [congruence|].
        destruct (proj2 (E b) (or_introl eq_refl)) as [|Hb]; [congruence|].
        rewrite Forall_forall in F1, F2.
        specialize (F1 _ Hb). specialize (F2 _ Ha). lia. }
      subst b. f_equal. apply IH; [assumption|].
      intros x. split; intros Hx.
      * destruct (proj1 (E x) (or_intror Hx)) as [<-|]; [|assumption].
        rewrite Forall_forall in F1. specialize (F1 _ Hx). lia.
      * destruct (proj2 (E x) (or_intror Hx)) as [<-|]; [|assumption].
        rewrite Forall_forall in F2. specialize (F2 _ Hx). lia.
Qed.

(** Every strictly increasing list of indices below [n] is the set of ones
    of the [n]-bit vector of some number below [2^n]. *)
Lemma ones_cover n S :
  Sorted lt S -> Forall (fun i => i < n) S ->
  exists k, k < 2 ^ n /\ ones (bits_of n k) 0 = S.
Proof.
  intros HS Hb.
  set (b := map (fun i => existsb (Nat.eqb i) S) (seq 0 n)).
  exists (value b). split.
  - pose proof (value_lt b) as L. unfold b in L at 2.
    rewrite length_map, length_seq in L. exact L.
  - replace n with (length b) at 1 by (unfold b; now rewrite length_map, length_seq).
    rewrite bits_of_value. unfold b. rewrite ones_map_seq.
    apply strongly_sorted_unique.
    + rewrite <- ones_map_seq. apply ones_strongly_sorted.
    + apply (Sorted_StronglySorted Nat.lt_trans), HS.
    + intros x. rewrite filter_In, in_seq, existsb_exists.
      rewrite Forall_forall in Hb. split.
      * intros [_ [y [Hy Ey]]]. apply Nat.eqb_eq in Ey. subst. exact Hy.
      * intros Hx. specialize (Hb x Hx). split; [lia|].
        exists x. split; [exact Hx | apply Nat.eqb_refl].
Qed.

Lemma ones_zero n i : ones (bits_of n 0) i = [].
Proof. revert i; induction n as [|n IH]; intros i; simpl; auto. Qed.

End Counter.

(** ** Sessions *)

Section Session.

Context {T : Type}.
Import Counter.

Lemma collect_ok (d : list T) bits i :
  i + length bits <= length d ->
  exists r, collect d bits i = Some r /\ idx r = ones bits i /\
            Forall (fun x => nth_error d (loc x) = Some (val x)) r.
Proof.
  revert i; induction bits as [|x rest IH]; intros i H; simpl in *.
  - exists []. repeat split. constructor.
  - destruct (IH (S i)) as (r & Hc & Hi & Hf); [lia|].
    destruct x.
    + destruct (nth_error d i) as [v|] eqn:E.
      * rewrite Hc. eexists. split; [reflexivity|]. split.
        -- simpl. f_equal. exact Hi.
        -- constructor; [exact E | exact Hf].
      * apply nth_error_None in E. lia.
    + exists r. auto.
Qed.

(** A session is well formed when its counter is as long as its data and,
    while the empty-set emission is pending, the counter is still zero. *)
Definition wf (s : SubsetIter T) : Prop :=
  length (set s) = length (data s) /\
  (with_emptyset s = true -> ones (set s) 0 = []).

Lemma next_wf s :
  wf s -> data (snd (next s)) = data s /\ wf (snd (next s)) /\ fst (next s) <> Panic.
Proof.
  destruct s as [d b w]; unfold wf, next, next_set; simpl; intros [H _].
  destruct w; simpl.
  { repeat split; auto; discriminate. }
  destruct (all_set b); simpl.
  { repeat split; auto; discriminate. }
  destruct (collect_ok d (add_one b) 0) as (r & -> & _);
    [rewrite add_one_length; lia|].
  simpl. repeat split; [rewrite add_one_length; exact H | discriminate | discriminate].
Qed.

Lemma next_yield s rs s' :
  wf s -> next s = (Yield rs, s') ->
  data s' = data s /\ idx rs = ones (set s') 0 /\
  Forall (fun x => nth_error (data s) (loc x) = Some (val x)) rs.
Proof.
  destruct s as [d b w]; unfold wf, next, next_set; simpl; intros [H Hz] E.
  destruct w.
  { injection E as <- <-. simpl. repeat split; [symmetry; auto | constructor]. }
  destruct (all_set b); [discriminate|].
  destruct (collect_ok d (add_one b) 0) as (r & Hc & Hi & Hf);
    [rewrite add_one_length; lia|].
  simpl in E. rewrite Hc in E. injection E as <- <-. simpl. auto.
Qed.

Lemma next_done (s s' : SubsetIter T) : next s = (Done, s') -> s' = s.
Proof.
  destruct s as [d b w]; unfold next, next_set; simpl; intros E.
  destruct w; [discriminate|].
  destruct (all_set b); simpl in E; [injection E as <-; reflexivity|].
  destruct (collect d (add_one b) 0); discriminate.
Qed.

Lemma iter_wf g : wf (iter g).
Proof.
  unfold wf, iter; simpl. split.
  - apply repeat_length.
  - intros _. rewrite from_elem_bits_of.
    generalize (length (gen_data g)) as n.
    assert (Z : forall n i, ones (bits_of n 0) i = []).
    { induction n as [|n IH]; intros i; simpl; auto. }
    intros n. apply Z.
Qed.

Lemma advance_wf g k :
  data (advance_n k (iter g)) = gen_data g /\ wf (advance_n k (iter g)).
Proof.
  cut (forall s, wf s -> data (advance_n k s) = data s /\ wf (advance_n k s)).
  { intros C. apply C, iter_wf. }
  induction k as [|k IH]; intros s Hs; simpl; [auto|].
  destruct (next_wf s Hs) as (Hd & Hw & _).
  rewrite <- Hd. apply IH, Hw.
Qed.

(** The subset produced for the counter value [k]. *)
Definition emitted (d : list T) (k : nat) : list (ref T) :=
  match collect d (bits_of (length d) k) 0 with Some r => r | None => [] end.

(** The session over [d] whose counter holds [k], empty-set emission done. *)
Definition state (d : list T) (k : nat) : SubsetIter T :=
  {| data := d; set := bits_of (length d) k; with_emptyset := false |}.

Lemma emitted_idx d k : idx (emitted d k) = ones (bits_of (length d) k) 0.
Proof.
  unfold emitted.
  destruct (collect_ok d (bits_of (length d) k) 0) as (r & -> & Hi & _);
    [rewrite bits_of_length; lia | exact Hi].
Qed.

Lemma iter_false d : iter (new d false) = state d 0.
Proof. unfold iter, state; simpl. now rewrite from_elem_bits_of. Qed.

Lemma iter_true d : next (iter (new d true)) = (Yield [], state d 0).
Proof. unfold iter, state, next; simpl. now rewrite from_elem_bits_of. Qed.

Lemma next_state d k :
  S k < 2 ^ length d -> next (state d k) = (Yield (emitted d (S k)), state d (S k)).
Proof.
  intros H. unfold next, next_set, state, emitted; simpl.
  rewrite all_set_bits_of_lt, add_one_bits_of by exact H. simpl.
  destruct (collect_ok d (bits_of (length d) (S k)) 0) as (r & -> & _);
    [rewrite bits_of_length; lia | reflexivity].
Qed.

Lemma next_state_top d :
  next (state d (2 ^ length d - 1)) = (Done, state d (2 ^ length d - 1)).
Proof.
  unfold next, next_set, state; simpl. now rewrite all_set_bits_of_top.
Qed.

Lemma advance_state d k : k < 2 ^ length d -> advance_n k (state d 0) = state d k.
Proof.
  intros H.
  cut (forall j, j + k < 2 ^ length d -> advance_n k (state d j) = state d (j + k)).
  { intros C. apply (C 0). lia. }
  induction k as [|k IH]; intros j Hj; simpl; [now rewrite Nat.add_0_r|].
  rewrite next_state by lia. simpl.
  rewrite IH by lia. f_equal. lia.
Qed.

Lemma drain_state d k fuel :
  k < 2 ^ length d -> 2 ^ length d - k <= fuel ->
  drain fuel (state d k) = (map (emitted d) (seq (S k) (2 ^ length d - 1 - k)), true).
Proof.
  revert k; induction fuel as [|f IH]; intros k Hk Hf; [lia|].
  simpl. destruct (Nat.eq_dec (S k) (2 ^ length d)) as [E|E].
  - replace k with (2 ^ length d - 1) by lia.
    rewrite next_state_top. replace (2 ^ length d - 1 - (2 ^ length d - 1)) with 0 by lia.
    reflexivity.
  - rewrite next_state by lia. rewrite IH by lia.
    replace (2 ^ length d - 1 - k) with (S (2 ^ length d - 1 - S k)) by lia.
    reflexivity.
Qed.

Lemma session_false d fuel :
  2 ^ length d <= fuel ->
  drain fuel (iter (new d false)) = (map (emitted d) (seq 1 (2 ^ length d - 1)), true).
Proof.
  intros H. pose proof (Nat.pow_nonzero 2 (length d)).
  rewrite iter_false, drain_state by lia. now rewrite Nat.sub_0_r.
Qed.

Lemma emitted_zero d : emitted d 0 = [].
Proof.
  pose proof (emitted_idx d 0) as E. rewrite ones_zero in E.
  destruct (emitted d 0); [reflexivity | discriminate].
Qed.

Lemma session_true d fuel :
  S (2 ^ length d) <= fuel ->
  drain fuel (iter (new d true)) = (map (emitted d) (seq 0 (2 ^ length d)), true).
Proof.
  intros H. pose proof (Nat.pow_nonzero 2 (length d)).
  destruct fuel as [|f]; [lia|]. cbn [drain].
  rewrite iter_true. cbv beta iota.
  rewrite drain_state by lia. rewrite Nat.sub_0_r.
  replace (2 ^ length d) with (S (2 ^ length d - 1)) at 2 by lia.
  cbn [seq map]. f_equal. f_equal. symmetry. apply emitted_zero.
Qed.

Lemma family_nodup n a c :
  a + c <= 2 ^ n -> NoDup (map (fun j => ones (bits_of n j) 0) (seq a c)).
Proof.
  intros H. apply NoDup_map_NoDup_ForallPairs; [|apply seq_NoDup].
  intros x y Hx Hy E. apply in_seq in Hx, Hy.
  apply ones_inj in E; [|now rewrite !bits_of_length].
  apply bits_of_inj in E; lia.
Qed.

Lemma emitted_vals d k :
  Forall (fun r => nth_error d (loc r) = Some (val r)) (emitted d k).
Proof.
  unfold emitted.
  destruct (collect_ok d (bits_of (length d) k) 0) as (r & -> & _ & Hf);
    [rewrite bits_of_length; lia | exact Hf].
Qed.

Lemma family_idx d l :
  map idx (map (emitted d) l) = map (fun j => ones (bits_of (length d) j) 0) l.
Proof. rewrite map_map. apply map_ext. apply emitted_idx. Qed.

Lemma family_members d a c r :
  In r (map (emitted d) (seq a c)) ->
  exists j, a <= j < a + c /\ idx r = ones (bits_of (length d) j) 0.
Proof.
  intros H. apply in_map_iff in H as (j & <- & Hj). apply in_seq in Hj.
  exists j. split; [exact Hj | apply emitted_idx].
Qed.

Lemma family_cover d S :
  Sorted lt S -> Forall (fun i => i < length d) S ->
  exists k, k < 2 ^ length d /\ (S <> [] -> 1 <= k) /\
            In S (map idx (map (emitted d) (seq k 1))).
Proof.
  intros HS Hb. destruct (ones_cover (length d) S HS Hb) as (k & Hk & E).
  exists k. split; [exact Hk|]. split.
  - intros Hne. destruct k; [|lia]. rewrite ones_zero in E. congruence.
  - rewrite family_idx. simpl. left. exact E.
Qed.

End Session.

(** ** Claims *)

Section Claims.

Context {T : Type}.
Import Counter.

(** C1: with [with_emptyset = false], a full session over [N] items yields
    exactly [2^N - 1] subsets, pairwise distinct, each a non-empty strictly
    increasing list of indices below [N], and every non-empty subset of
    [{0..N-1}] is among them (hence exactly once). *)
Theorem C1_session_without_empty (d : list T) (fuel : nat) :
  2 ^ length d <= fuel ->
  exists L, drain fuel (iter (new d false)) = (L, true) /\
    length L = 2 ^ length d - 1 /\
    NoDup (map idx L) /\
    (forall r, In r L ->
       idx r <> [] /\ Sorted lt (idx r) /\ Forall (fun i => i < length d) (idx r)) /\
    (forall S, S <> [] -> Sorted lt S -> Forall (fun i => i < length d) S ->
       In S (map idx L)).
Proof.
  intros H. pose proof (Nat.pow_nonzero 2 (length d)).
  exists (map (emitted d) (seq 1 (2 ^ length d - 1))).
  split; [apply session_false, H|].
  split; [now rewrite length_map, length_seq|].
  split; [rewrite family_idx; apply family_nodup; lia|].
  split.
  - intros r Hr. apply family_members in Hr as (j & Hj & ->).
    split; [|split; [apply ones_sorted|]].
    + intros E. apply ones_nil_value in E.
      rewrite value_bits_of in E by lia. lia.
    + apply Forall_forall. intros i Hi. apply ones_range in Hi.
      rewrite bits_of_length in Hi. lia.
  - intros S Hne HS Hb.
    destruct (family_cover d S HS Hb) as (k & Hk & Hk1 & Hin).
    specialize (Hk1 Hne).
    rewrite family_idx in Hin |- *. simpl in Hin. destruct Hin as [E|[]].
    apply in_map_iff. exists k. split; [exact E|]. apply in_seq. lia.
Qed.

(** C2: with [with_emptyset = true], a full session yields exactly [2^N]
    pairwise distinct subsets covering the whole power set of [{0..N-1}];
    the first one is the empty subset, and emitting it leaves the counter
    untouched: the session then goes on as a fresh session without it. *)
Theorem C2_session_with_empty (d : list T) (fuel : nat) :
  S (2 ^ length d) <= fuel ->
  snd (next (iter (new d true))) = iter (new d false) /\
  exists L, drain fuel (iter (new d true)) = (L, true) /\
    hd_error L = Some [] /\
    length L = 2 ^ length d /\
    NoDup (map idx L) /\
    (forall r, In r L -> Sorted lt (idx r) /\ Forall (fun i => i < length d) (idx r)) /\
    (forall S, Sorted lt S -> Forall (fun i => i < length d) S -> In S (map idx L)).
Proof.
  intros H. pose proof (Nat.pow_nonzero 2 (length d)).
  split; [rewrite iter_true, iter_false; reflexivity|].
  exists (map (emitted d) (seq 0 (2 ^ length d))).
  split; [apply session_true, H|].
  split.
  { destruct (2 ^ length d) as [|m] eqn:E; [lia|]. simpl. f_equal.
    apply emitted_zero. }
  split; [now rewrite length_map, length_seq|].
  split; [rewrite family_idx; apply family_nodup; lia|].
  split.
  - intros r Hr. apply family_members in Hr as (j & Hj & ->).
    split; [apply ones_sorted|].
    apply Forall_forall. intros i Hi. apply ones_range in Hi.
    rewrite bits_of_length in Hi. lia.
  - intros S HS Hb.
    destruct (family_cover d S HS Hb) as (k & Hk & _ & Hin).
    rewrite family_idx in Hin |- *. simpl in Hin. destruct Hin as [E|[]].
    apply in_map_iff. exists k. split; [exact E|]. apply in_seq. lia.
Qed.

(** C3: in every session and at every step, an emitted subset lists the
    references in ascending index order: its index list is the list of the
    set bits of the counter in increasing order, and each reference points
    at the source item stored at its index. *)
Theorem C3_ascending_order (g : SubsetGenerator T) (k : nat) rs s' :
  next (advance_n k (iter g)) = (Yield rs, s') ->
  idx rs = filter (fun i => nth i (set s') false) (seq 0 (length (set s'))) /\
  Sorted lt (idx rs) /\
  Forall (fun r => nth_error (gen_data g) (loc r) = Some (val r)) rs.
Proof.
  intros E. destruct (advance_wf g k) as [Hd Hw].
  destruct (next_yield _ _ _ Hw E) as (_ & Hi & Hf).
  rewrite Hd in Hf. split; [|split; [rewrite Hi; apply ones_sorted | exact Hf]].
  rewrite Hi, ones_filter_nth. apply filter_ext. intros j. now rewrite Nat.sub_0_r.
Qed.

(** C4: once [next] has returned [None], every later call returns [None]. *)
Theorem C4_exhaustion_idempotent (s s' : SubsetIter T) :
  next s = (Done, s') -> forall m, fst (next (advance_n m s')) = Done.
Proof.
  intros E. apply next_done in E as Es. subst s'.
  intros m. induction m as [|m IH]; simpl; [now rewrite E|].
  rewrite E. exact (IH).
Qed.

(** C5: over the empty vector, the zero-bit counter is all ones; without the
    empty set a session yields nothing, with it exactly one empty subset, and
    every later call returns [None]. *)
Theorem C5_empty_source :
  all_set (set (iter (new (@nil T) false))) = true /\
  (forall f, drain (S f) (iter (new (@nil T) false)) = ([], true)) /\
  (forall f, drain (S (S f)) (iter (new (@nil T) true)) = ([[]], true)) /\
  (forall m, fst (next (advance_n m (iter (new (@nil T) false)))) = Done) /\
  (forall m, fst (next (advance_n (S m) (iter (new (@nil T) true)))) = Done).
Proof.
  assert (Fix : forall m, advance_n m (iter (new (@nil T) false)) = iter (new [] false)).
  { induction m as [|m IH]; [reflexivity|]. exact IH. }
  split; [reflexivity|]. split; [reflexivity|]. split; [reflexivity|].
  split; intros m; [now rewrite Fix|].
  change (advance_n (S m) (iter (new (@nil T) true)))
    with (advance_n m (iter (new (@nil T) false))).
  now rewrite Fix.
Qed.

(** C6 (as amended): on an all-ones counter, once the empty-set emission
    is over, a call of [next] returns [None] and leaves the whole session as
    it was ([next_set] reports [false] without touching the counter), and so
    does every later call: the counter never wraps to all-zero and no subset
    is emitted again. While the emission is still pending, the call yields
    the empty subset and only clears the flag; the call after it returns
    [None] with the session unchanged. *)
Theorem C6_all_ones_frame (s : SubsetIter T) :
  all_set (set s) = true ->
  (with_emptyset s = false ->
     next_set s = (false, s) /\ next s = (Done, s) /\
     forall m, advance_n m s = s /\ next (advance_n m s) = (Done, s)) /\
  (with_emptyset s = true ->
     let s1 := {| data := data s; set := set s; with_emptyset := false |} in
     next s = (Yield [], s1) /\ next s1 = (Done, s1)).
Proof.
  intros Ha. split; intros Hw.
  - assert (N : next_set s = (false, s)) by (unfold next_set; now rewrite Ha).
    assert (D : next s = (Done, s)) by (unfold next; now rewrite Hw, N).
    split; [exact N|]. split; [exact D|].
    intros m. induction m as [|m IH]; [split; [reflexivity | exact D]|].
    cbn [advance_n]. rewrite D. exact IH.
  - destruct s as [d b w]; simpl in *; subst w.
    unfold next, next_set; simpl. rewrite Ha. split; reflexivity.
Qed.

(** C7: the borrowing and the consuming session are the same session, so
    they enumerate the same subsets in the same order. *)
Theorem C7_iter_into_iter (g : SubsetGenerator T) :
  iter g = into_iter g /\
  forall fuel, drain fuel (iter g) = drain fuel (into_iter g).
Proof. split; reflexivity. Qed.

(** C9: the [k]-th result of a session without the empty set
    ([1 <= k <= 2^N - 1]) is the set of items at the indices of the set bits
    of [k], bit 0 standing for item 0; with the empty set it is the
    [(k+1)]-th result. *)
Theorem C9_binary_counter_order (d : list T) (k : nat) :
  1 <= k <= 2 ^ length d - 1 ->
  exists rs,
    fst (next (advance_n (k - 1) (iter (new d false)))) = Yield rs /\
    fst (next (advance_n k (iter (new d true)))) = Yield rs /\
    idx rs = filter (fun i => Nat.testbit k i) (seq 0 (length d)) /\
    Forall (fun r => nth_error d (loc r) = Some (val r)) rs.
Proof.
  intros H. exists (emitted d k).
  assert (A : advance_n (k - 1) (iter (new d false)) = state d (k - 1)).
  { rewrite iter_false. apply advance_state. lia. }
  assert (N : fst (next (state d (k - 1))) = Yield (emitted d k)).
  { rewrite next_state by lia. simpl. now replace (S (k - 1)) with k by lia. }
  split; [now rewrite A|]. split.
  - destruct k as [|k']; [lia|]. cbn [advance_n]. rewrite iter_true.
    simpl. rewrite <- iter_false. simpl in A. rewrite Nat.sub_0_r in A.
    rewrite A. simpl in N. rewrite Nat.sub_0_r in N. exact N.
  - split; [|apply emitted_vals].
    rewrite emitted_idx, bits_of_testbit. apply ones_map_seq.
Qed.

(** C10: from its creation ([iter] or [into_iter]) and through every call of
    [next], a session's counter is as long as the source vector, so no index
    access of [next] goes out of bounds (no call panics). *)
Theorem C10_counter_length (g : SubsetGenerator T) (k : nat) :
  length (set (advance_n k (iter g))) = length (gen_data g) /\
  length (set (advance_n k (into_iter g))) = length (gen_data g) /\
  fst (next (advance_n k (iter g))) <> Panic /\
  fst (next (advance_n k (into_iter g))) <> Panic.
Proof.
  destruct (advance_wf g k) as (Hd & Hl & _).
  destruct (next_wf _ (proj2 (advance_wf g k))) as (_ & _ & Hp).
  change (into_iter g) with (iter g). rewrite Hl, Hd. auto.
Qed.

End Claims.

(** ** Further properties of the session *)

Section Library.

Context {T : Type}.
Import Counter.

Lemma all_set_forall b : all_set b = true <-> Forall (fun x => x = true) b.
Proof.
  induction b as [|x r IH]; [split; auto|].
  rewrite all_set_cons, andb_true_iff, IH, Forall_cons_iff. reflexivity.
Qed.

Lemma ones_length b i : length (ones b i) = count_occ bool_dec b true.
Proof.
  revert i; induction b as [|[|] r IH]; intros i; simpl; auto.
Qed.

(** [next_set] when it succeeds adds exactly one to the counter, read as a
    binary number with bit 0 least significant, and changes nothing else. *)
Theorem next_set_increments (s s' : SubsetIter T) :
  next_set s = (true, s') ->
  Counter.value (set s') = S (Counter.value (set s)) /\
  length (set s') = length (set s) /\
  data s' = data s /\ with_emptyset s' = with_emptyset s.
Proof.
  unfold next_set. destruct (all_set (set s)) eqn:A; [discriminate|].
  intros E. injection E as <-. simpl.
  rewrite add_one_value, add_one_length by exact A. auto.
Qed.

(** [next_set] fails exactly when every bit of the counter is set, and then
    leaves the session as it was. *)
Theorem next_set_fails_iff_all_ones (s : SubsetIter T) :
  (fst (next_set s) = false <-> Forall (fun x => x = true) (set s)) /\
  (fst (next_set s) = false -> snd (next_set s) = s).
Proof.
  unfold next_set. rewrite <- all_set_forall.
  destruct (all_set (set s)); simpl; split; try tauto; try split; congruence.
Qed.

(** The increment loop of [next_set] on its own turns an all-ones counter
    into the all-zero one; only the all-ones check in front of it keeps the
    session from starting over. *)
Theorem add_one_all_ones_wraps n : add_one (repeat true n) = repeat false n.
Proof. induction n as [|n IH]; simpl; [reflexivity|]. now rewrite IH. Qed.

(** The one-shot empty-set flag is down after the first call of [next],
    whatever the configuration, and stays down. *)
Theorem empty_flag_cleared (g : SubsetGenerator T) k :
  with_emptyset (advance_n (S k) (iter g)) = false.
Proof.
  cut (forall s : SubsetIter T, with_emptyset s = false -> with_emptyset (advance_n k s) = false).
  { intros C. apply C. unfold next, next_set.
    destruct (with_emptyset (iter g)) eqn:W; [reflexivity|].
    destruct (all_set (set (iter g))); simpl; [exact W|].
    destruct (collect _ _ _); reflexivity. }
  induction k as [|k IH]; intros s Hs; [exact Hs|]. apply IH.
  destruct s as [d b w]; simpl in Hs; subst w. unfold next, next_set; simpl.
  destruct (all_set b); simpl; [reflexivity|].
  destruct (collect _ _ _); reflexivity.
Qed.

(** A subset yielded by a session has one element per set bit of the
    counter, and so at most as many as the source vector. *)
Theorem yield_size (g : SubsetGenerator T) k rs s' :
  next (advance_n k (iter g)) = (Yield rs, s') ->
  length rs = count_occ bool_dec (set s') true /\ length rs <= length (gen_data g).
Proof.
  intros E. destruct (advance_wf g k) as [Hd Hw].
  destruct (next_wf _ Hw) as (_ & Hw' & _).
  rewrite E in Hw'. simpl in Hw'. destruct Hw' as [Hl _].
  destruct (next_yield _ _ _ Hw E) as (Hd' & Hi & _).
  assert (L : length rs = count_occ bool_dec (set s') true).
  { rewrite <- ones_length with (i := 0), <- Hi. unfold idx. now rewrite length_map. }
  split; [exact L|]. rewrite L, <- Hd, <- Hd', <- Hl. apply count_occ_bound.
Qed.

End Library.

(** ** The [setcover] example program ([src/examples/setcover.rs]) *)

Module SetCover.

(** [usize::MAX] on a 64-bit target. *)
Definition usize_max : Z := 18446744073709551615.

Definition universe : nat := 5.

Definition families : list (list Z) :=
  [[4]; [0; 1; 2]; [1; 3]; [2; 4]; [0; 3; 4]]%Z.

(** [HashSet::insert]: the set as the list of its distinct elements. *)
Definition hs_insert (x : Z) (h : list Z) : list Z :=
  if existsb (Z.eqb x) h then h else x :: h.

(** The union of the selected families, built as in the loop body. *)
Definition union (subset : list (ref (list Z))) : list Z :=
  fold_left (fun h family => fold_left (fun h e => hs_insert e h) (val family) h)
            subset [].

(** One loop iteration: [if result.len() == universe && subset.len() <= opt]. *)
Definition step (opt : Z) (subset : list (ref (list Z))) : Z :=
  if Nat.eqb (length (union subset)) universe && (Z.of_nat (length subset) <=? opt)%Z
  then Z.of_nat (length subset) else opt.

(** The subsets the [for] loop receives: the session run until [None]. *)
Definition subsets : list (list (ref (list Z))) :=
  fst (drain (2 ^ length families) (iter (new families false))).

(** The value [main] prints. *)
Definition main : Z := fold_left step subsets usize_max.

(** The optimum as the spec words it: the least size of an enumerated
    subset whose union is exactly [{0,1,2,3,4}]. *)
Definition is_cover (subset : list (ref (list Z))) : bool :=
  let u := union subset in
  forallb (fun x => existsb (Z.eqb x) u) [0; 1; 2; 3; 4]%Z &&
  forallb (fun x => (0 <=? x) && (x <? 5))%Z u.

Definition spec_optimum : option nat :=
  fold_left (fun acc subset =>
               if is_cover subset then
                 match acc with
                 | Some m => Some (Nat.min m (length subset))
                 | None => Some (length subset)
                 end
               else acc) subsets None.

(** C8: on the five families over the universe [{0..4}], the session runs
    to its end and the least size of a covering subset is 2, which is the
    value the program computes. *)
Theorem C8_setcover_optimum :
  snd (drain (2 ^ length families) (iter (new families false))) = true /\
  spec_optimum = Some 2 /\ main = 2%Z.
Proof. vm_compute. repeat split. Qed.

(** [main] with its input as parameters: the universe size and the
    families, the loop body unchanged. *)
Definition setcover (universe : nat) (families : list (list Z)) : Z :=
  fold_left (fun opt subset =>
               if Nat.eqb (length (union subset)) universe &&
                  (Z.of_nat (length subset) <=? opt)%Z
               then Z.of_nat (length subset) else opt)
            (fst (drain (2 ^ length families) (iter (new families false))))
            usize_max.

Definition subsets_of (families : list (list Z)) : list (list (ref (list Z))) :=
  fst (drain (2 ^ length families) (iter (new families false))).

Lemma main_setcover : main = setcover universe families.
Proof. reflexivity. Qed.

Lemma hs_insert_spec x h :
  NoDup h -> NoDup (hs_insert x h) /\ (forall y, In y (hs_insert x h) <-> y = x \/ In y h).
Proof.
  intros H. unfold hs_insert. destruct (existsb (Z.eqb x) h) eqn:E.
  - split; [exact H|]. apply existsb_exists in E as (z & Hz & Ez).
    apply Z.eqb_eq in Ez. subst z. intros y. split; [auto|]. intros [->|]; auto.
  - split.
    + constructor; [|exact H]. intros Hx.
      assert (existsb (Z.eqb x) h = true) by (apply existsb_exists; exists x; split; [exact Hx | apply Z.eqb_refl]).
      congruence.
    + intros y. simpl. split; intros [|]; auto.
Qed.

Lemma fold_insert_spec l h :
  NoDup h ->
  NoDup (fold_left (fun h e => hs_insert e h) l h) /\
  (forall y, In y (fold_left (fun h e => hs_insert e h) l h) <-> In y h \/ In y l).
Proof.
  revert h; induction l as [|e l IH]; intros h H; simpl.
  - split; [exact H|]. tauto.
  - destruct (hs_insert_spec e h H) as [Hn Hi].
    destruct (IH _ Hn) as [Hn' Hi']. split; [exact Hn'|].
    intros y. rewrite Hi', Hi. simpl. intuition congruence.
Qed.

Lemma fold_union_spec (subset : list (ref (list Z))) h :
  NoDup h ->
  let u := fold_left (fun h family => fold_left (fun h e => hs_insert e h) (val family) h)
                     subset h in
  NoDup u /\ (forall x, In x u <-> In x h \/ exists r, In r subset /\ In x (val r)).
Proof.
  revert h; induction subset as [|r rest IH]; intros h H; simpl.
  - split; [exact H|]. intros x. split; [auto|]. intros [|(? & [] & _)]; auto.
  - destruct (fold_insert_spec (val r) h H) as [Hn Hi].
    destruct (IH _ Hn) as [Hn' Hi']. split; [exact Hn'|].
    intros x. rewrite Hi', Hi. split.
    + intros [[|]|(r' & ? & ?)]; eauto.
    + intros [|(r' & [<-|] & ?)]; eauto.
Qed.

(** The [HashSet] loop of the program: the union it builds holds each
    element once, and exactly the elements of the selected families, so
    [result.len()] is the number of distinct elements covered. *)
Theorem union_distinct_elements (subset : list (ref (list Z))) :
  NoDup (union subset) /\
  (forall x, In x (union subset) <-> exists r, In r subset /\ In x (val r)).
Proof.
  destruct (fold_union_spec subset [] (NoDup_nil _)) as [Hn Hi].
  split; [exact Hn|]. intros x. unfold union. rewrite Hi. simpl. tauto.
Qed.

Lemma setcover_fold u (l : list (list (ref (list Z)))) o :
  let f := fun opt subset =>
             if Nat.eqb (length (union subset)) u && (Z.of_nat (length subset) <=? opt)%Z
             then Z.of_nat (length subset) else opt in
  (fold_left f l o <= o)%Z /\
  (forall x, In x l -> length (union x) = u -> (fold_left f l o <= Z.of_nat (length x))%Z) /\
  (fold_left f l o = o \/
   exists x, In x l /\ length (union x) = u /\ fold_left f l o = Z.of_nat (length x)).
Proof.
  intros f. revert o; induction l as [|y l IH]; intros o; simpl.
  - split; [lia|]. split; [tauto|]. auto.
  - destruct (IH (f o y)) as (H1 & H2 & H3).
    assert (Hy : (f o y <= o)%Z /\
                 (length (union y) = u -> (f o y <= Z.of_nat (length y))%Z) /\
                 (f o y = o \/ (length (union y) = u /\ f o y = Z.of_nat (length y)))).
    { unfold f. destruct (Nat.eqb_spec (length (union y)) u);
        destruct (Z.leb_spec (Z.of_nat (length y)) o); simpl; lia. }
    destruct Hy as (Hy1 & Hy2 & Hy3).
    split; [lia|]. split.
    + intros x [<-|Hx] Hu; [specialize (Hy2 Hu); lia | apply H2; assumption].
    + destruct H3 as [E|(x & Hx & Hu & E)].
      * destruct Hy3 as [E'|[Hu E']]; [left; lia|].
        right. exists y. split; [left; reflexivity|]. split; [exact Hu | lia].
      * right. exists x. split; [right; exact Hx|]. auto.
Qed.

Lemma subsets_of_length fs x : In x (subsets_of fs) -> length x <= length fs.
Proof.
  unfold subsets_of. rewrite session_false by lia.
  intros Hx. apply family_members in Hx as (j & _ & Hi).
  unfold idx in Hi. rewrite <- (length_map loc x), Hi, ones_length.
  rewrite <- (Counter.bits_of_length (length fs) j) at 2. apply count_occ_bound.
Qed.

(** The program, on any families and universe size: the value it prints is
    the least size of an enumerated subset whose union has [universe]
    distinct elements, or [usize::MAX] when there is none. *)
Theorem setcover_minimum (u : nat) (fs : list (list Z)) :
  (Z.of_nat (length fs) < usize_max)%Z ->
  (forall x, In x (subsets_of fs) -> length (union x) = u ->
     (setcover u fs <= Z.of_nat (length x))%Z) /\
  ((exists x, In x (subsets_of fs) /\ length (union x) = u /\
              setcover u fs = Z.of_nat (length x)) \/
   (setcover u fs = usize_max /\
    forall x, In x (subsets_of fs) -> length (union x) <> u)).
Proof.
  intros Hn.
  destruct (setcover_fold u (subsets_of fs) usize_max) as (_ & H2 & H3).
  fold (subsets_of fs) in *. unfold setcover. fold (subsets_of fs).
  split; [exact H2|].
  destruct H3 as [E|Ex]; [|left; exact Ex].
  right. split; [exact E|]. intros x Hx Hu.
  specialize (H2 x Hx Hu). pose proof (subsets_of_length fs x Hx). lia.
Qed.

End SetCover.

(** ** The [subsetsum] example program ([src/examples/subsetsum.rs]) *)

Module SubsetSum.

Import Counter.

Definition i32_min : Z := (- 2 ^ 31)%Z.
Definition i32_max : Z := (2 ^ 31 - 1)%Z.

(** [acc + *i] on [i32]; an overflow panics ([None]), as in a debug build. *)
Definition add_i32 (a b : Z) : option Z :=
  let c := (a + b)%Z in
  if (i32_min <=? c)%Z && (c <=? i32_max)%Z then Some c else None.

(** [subset.into_iter().fold(acc, |acc, i| acc + *i)]. *)
Fixpoint sum (acc : Z) (rs : list (ref Z)) : option Z :=
  match rs with
  | [] => Some acc
  | r :: rest =>
      match add_i32 acc (val r) with
      | Some a => sum a rest
      | None => None
      end
  end.

(** The [for] loop with its [break]: [Some found], or [None] on a panic. *)
Fixpoint search (target : Z) (subsets : list (list (ref Z))) : option bool :=
  match subsets with
  | [] => Some false
  | subset :: rest =>
      match sum 0 subset with
      | Some s => if Z.eqb s target then Some true else search target rest
      | None => None
      end
  end.

(** [main] with the vector and the target as parameters: the value of
    [found] it prints. *)
Definition subsetsum (set : list Z) (target : Z) : option bool :=
  search target (fst (drain (2 ^ length set) (into_iter (new set false)))).

Definition main : option bool := subsetsum [3; 34; 4; 12; 5; 2]%Z 9%Z.

Definition abs_sum (l : list Z) : Z := fold_right (fun x a => Z.abs x + a)%Z 0%Z l.
Definition zsum (l : list Z) : Z := fold_right Z.add 0%Z l.

(** The sum of the items at the indices of [S]. *)
Definition index_sum (d : list Z) (S : list nat) : Z :=
  fold_right (fun i a => nth i d 0 + a)%Z 0%Z S.

Fixpoint select (bits : list bool) (l : list Z) : list Z :=
  match bits, l with
  | b :: bs, x :: xs => if b then x :: select bs xs else select bs xs
  | _, _ => []
  end.

Lemma abs_sum_nonneg l : (0 <= abs_sum l)%Z.
Proof. induction l; simpl; lia. Qed.

Lemma select_abs_sum bits l : (abs_sum (select bits l) <= abs_sum l)%Z.
Proof.
  revert l; induction bits as [|b bs IH]; intros l.
  - apply abs_sum_nonneg.
  - destruct l as [|x xs]; simpl; [lia|].
    specialize (IH xs). destruct b; simpl; lia.
Qed.

Lemma skipn_nth_error (d : list Z) i x :
  nth_error d i = Some x -> skipn i d = x :: skipn (S i) d.
Proof.
  revert i; induction d as [|y d IH]; intros [|i] E; simpl in *; try discriminate.
  - now injection E as ->.
  - apply IH, E.
Qed.

Lemma collect_select (d : list Z) bits i r :
  collect d bits i = Some r -> map val r = select bits (skipn i d).
Proof.
  revert i r; induction bits as [|b bs IH]; intros i r E; simpl in E.
  - injection E as <-. reflexivity.
  - destruct b.
    + destruct (nth_error d i) as [x|] eqn:N; [|discriminate].
      destruct (collect d bs (S i)) as [r'|] eqn:C; [|discriminate].
      injection E as <-. rewrite (skipn_nth_error d i x N). cbn [map select val].
      f_equal. apply IH, C.
    + apply IH in E. rewrite E.
      assert (Sk1 : skipn (S i) d = skipn 1 (skipn i d))
        by (rewrite skipn_skipn; reflexivity).
      rewrite Sk1. destruct (skipn i d) as [|x xs]; simpl; [destruct bs|]; reflexivity.
Qed.

Lemma emitted_abs_sum d k : (abs_sum (map val (emitted d k)) <= abs_sum d)%Z.
Proof.
  unfold emitted.
  destruct (collect d (bits_of (length d) k) 0) as [r|] eqn:C.
  - rewrite (collect_select _ _ _ _ C). apply select_abs_sum.
  - simpl. apply abs_sum_nonneg.
Qed.

Lemma sum_ok acc rs :
  (Z.abs acc + abs_sum (map val rs) <= i32_max)%Z ->
  sum acc rs = Some (acc + zsum (map val rs))%Z.
Proof.
  unfold i32_max. revert acc; induction rs as [|r rest IH]; intros acc H; simpl in *.
  - f_equal. lia.
  - unfold add_i32, i32_min, i32_max.
    pose proof (abs_sum_nonneg (map val rest)).
    replace ((- 2 ^ 31 <=? acc + val r)%Z && (acc + val r <=? 2 ^ 31 - 1)%Z) with true
      by (symmetry; apply andb_true_iff; split; apply Z.leb_le; lia).
    rewrite IH by lia. f_equal. lia.
Qed.

Lemma index_sum_idx d (r : list (ref Z)) :
  Forall (fun x => nth_error d (loc x) = Some (val x)) r ->
  index_sum d (idx r) = zsum (map val r).
Proof.
  induction 1 as [|x r Hx _ IH]; [reflexivity|].
  unfold index_sum, idx, zsum in *. cbn [map fold_right].
  rewrite IH. f_equal. now apply nth_error_nth.
Qed.

Lemma search_ok t (L : list (list (ref Z))) :
  (forall r, In r L -> sum 0 r = Some (zsum (map val r))) ->
  search t L = Some (existsb (fun r => Z.eqb (zsum (map val r)) t) L).
Proof.
  induction L as [|r L IH]; intros H; simpl; [reflexivity|].
  rewrite (H r (or_introl eq_refl)).
  destruct (Z.eqb (zsum (map val r)) t); [reflexivity|].
  apply IH. intros r' Hr'. apply H. right. exact Hr'.
Qed.

(** The program, on any vector whose absolute values add up to at most
    [i32::MAX] (so that no sum overflows): it never panics, and it prints
    [true] exactly when some non-empty set of indices has items summing to
    the target. *)
Theorem subsetsum_correct (d : list Z) (t : Z) :
  (abs_sum d <= i32_max)%Z ->
  exists found, subsetsum d t = Some found /\
    (found = true <->
     exists S, S <> [] /\ Sorted lt S /\ Forall (fun i => i < length d) S /\
               index_sum d S = t).
Proof.
  intros Hb. unfold subsetsum.
  change (into_iter (new d false)) with (iter (new d false)).
  rewrite session_false by lia.
  set (L := map (emitted d) (seq 1 (2 ^ length d - 1))).
  pose proof (Nat.pow_nonzero 2 (length d)).
  eexists. split.
  { apply search_ok. intros r Hr. unfold L in Hr.
    apply in_map_iff in Hr as (j & <- & _). apply sum_ok.
    pose proof (emitted_abs_sum d j). simpl. lia. }
  rewrite existsb_exists. split.
  - intros (r & Hr & E). apply Z.eqb_eq in E.
    pose proof Hr as Hr'. unfold L in Hr'. apply in_map_iff in Hr' as (j & <- & Hj).
    apply in_seq in Hj.
    exists (idx (emitted d j)). rewrite emitted_idx. split; [|split; [apply ones_sorted|split]].
    + intros N. apply ones_nil_value in N. rewrite value_bits_of in N by lia. lia.
    + apply Forall_forall. intros i Hi. apply ones_range in Hi.
      rewrite bits_of_length in Hi. lia.
    + rewrite <- emitted_idx, (index_sum_idx d) by apply emitted_vals. exact E.
  - intros (S & Hne & HS & Hr & E).
    destruct (family_cover d S HS Hr) as (k & Hk & Hk1 & Hin).
    specialize (Hk1 Hne). simpl in Hin. destruct Hin as [Ei|[]].
    exists (emitted d k). split.
    + unfold L. apply in_map_iff. exists k. split; [reflexivity|]. apply in_seq. lia.
    + apply Z.eqb_eq. rewrite <- (index_sum_idx d) by apply emitted_vals.
      rewrite Ei. exact E.
Qed.

End SubsetSum.

(** ** Counterexample and witnesses *)

(** C6 as stated fails: over the empty vector with the empty set configured,
    the counter is (trivially) all ones, yet the first call of [next] yields
    the empty subset and clears the one-shot flag. *)
Lemma C6_counterexample :
  ~ (forall s : SubsetIter nat,
       all_set (set s) = true -> fst (next s) = Done /\ snd (next s) = s).
Proof.
  intros H. destruct (H (iter (new [] true)) eq_refl) as [E _].
  discriminate E.
Qed.

Lemma C1_witness : length (fst (drain 4 (iter (new [7; 8] false)))) = 3.
Proof.
  destruct (C1_session_without_empty [7; 8] 4) as (L & E & Hl & _);
    [simpl; lia|].
  rewrite E. exact Hl.
Defined.

Lemma C2_witness : hd_error (fst (drain 5 (iter (new [7; 8] true)))) = Some [].
Proof.
  destruct (C2_session_with_empty [7; 8] 5) as (_ & L & E & Hh & _);
    [simpl; lia|].
  rewrite E. exact Hh.
Defined.

Lemma C3_witness :
  idx [{| loc := 0; val := 10 |}; {| loc := 1; val := 20 |}] =
  filter (fun i => nth i [true; true; false] false) (seq 0 3).
Proof.
  apply (proj1 (C3_ascending_order (new [10; 20; 30] false) 2
           [{| loc := 0; val := 10 |}; {| loc := 1; val := 20 |}]
           {| data := [10; 20; 30]; set := [true; true; false];
              with_emptyset := false |} eq_refl)).
Defined.

Lemma C4_witness :
  fst (next (advance_n 3 {| data := [5]; set := [true]; with_emptyset := false |})) = Done.
Proof.
  apply (C4_exhaustion_idempotent
           {| data := [5]; set := [true]; with_emptyset := false |}
           {| data := [5]; set := [true]; with_emptyset := false |}).
  reflexivity.
Defined.

Lemma C6_witness :
  next {| data := [5]; set := [true]; with_emptyset := false |} =
  (Done, {| data := [5]; set := [true]; with_emptyset := false |}).
Proof.
  apply (proj1 (proj2 (proj1 (C6_all_ones_frame
           {| data := [5]; set := [true]; with_emptyset := false |} eq_refl) eq_refl))).
Defined.

Lemma C9_witness :
  fst (next (advance_n 4 (iter (new [10; 20; 30] false)))) =
  fst (next (advance_n 5 (iter (new [10; 20; 30] true)))).
Proof.
  destruct (C9_binary_counter_order [10; 20; 30] 5) as (rs & E1 & E2 & _);
    [simpl; lia|].
  change (5 - 1) with 4 in E1. rewrite E1, E2. reflexivity.
Defined.

Example ex_count4 :
  length (fst (drain 20 (iter (new [1;2;3;4] false)))) = 15 /\
  length (fst (drain 20 (iter (new [1;2;3;4] true)))) = 16.
Proof. split; reflexivity. Qed.

Lemma next_set_increments_witness :
  Counter.value [true; true; false] = S (Counter.value [false; true; false]).
Proof.
  apply (proj1 (next_set_increments
    {| data := [1; 2; 3]; set := [false; true; false]; with_emptyset := false |}
    {| data := [1; 2; 3]; set := [true; true; false]; with_emptyset := false |}
    eq_refl)).
Defined.

Lemma yield_size_witness : 2 <= length [10; 20; 30].
Proof.
  apply (proj2 (yield_size (new [10; 20; 30] false) 2
           [{| loc := 0; val := 10 |}; {| loc := 1; val := 20 |}]
           {| data := [10; 20; 30]; set := [true; true; false];
              with_emptyset := false |} eq_refl)).
Defined.

Lemma setcover_minimum_witness :
  (SetCover.setcover 5 SetCover.families <= 2)%Z.
Proof.
  apply (Z.le_trans _ (Z.of_nat (length (nth 17 (SetCover.subsets_of SetCover.families) [])))).
  - apply (proj1 (SetCover.setcover_minimum 5 SetCover.families ltac:(vm_compute; reflexivity))).
    + apply nth_In. vm_compute. lia.
    + vm_compute. reflexivity.
  - vm_compute. congruence.
Defined.

Lemma subsetsum_correct_witness : SubsetSum.main = Some true.
Proof.
  destruct (SubsetSum.subsetsum_correct [3; 34; 4; 12; 5; 2]%Z 9%Z)
    as (found & E & Hf); [vm_compute; discriminate|].
  unfold SubsetSum.main. rewrite E. f_equal. apply Hf.
  exists [2; 4]. split; [discriminate|]. split; [repeat constructor|].
  split; [repeat constructor|]. reflexivity.
Defined.
